(** * Binomial lattice pricer ([binomial.c]): embedding and verification

    The C program prices a European call on a recombining binomial
    lattice.  This development embeds [Payoff] and [OptionPrice] as Rocq
    programs over

    - an abstract interface [Arith] for the [double] operations the code
      uses, so that every structural result (memory safety, determinism,
      the loop-bound refinement) holds for any arithmetic, in particular
      for IEEE binary64;
    - a heap of [malloc]ed buffers whose cells remember whether they were
      ever written, with faulting loads and stores;
    - the instance [dbl]: exact real numbers extended with one invalid
      value [NaN], produced by [0/0]-like divisions and by square roots of
      negative numbers and absorbed by arithmetic, as in the C program.
      Rounding and overflow are not modelled. *)

From Stdlib Require Import Reals Lra Lia Psatz ZArith.
From Stdlib Require PrimFloat Uint63 Floats String Ascii.
From stdpp Require Import gmap list.

(** ** The arithmetic of [double] *)

Class Arith (T : Type) := {
  of_int : Z → T;          (* conversion of an [int] (or integral literal) *)
  half : T;                (* the literal [0.5] *)
  fadd : T → T → T;
  fsub : T → T → T;
  fmul : T → T → T;
  fdiv : T → T → T;
  fneg : T → T;
  fexp : T → T;            (* [exp] of math.h *)
  fsqrt : T → T;           (* [sqrt] of math.h *)
  fgt : T → T → bool       (* [x > y] *)
}.

Declare Scope dbl_scope.
Delimit Scope dbl_scope with D.
Notation "x + y" := (fadd x y) : dbl_scope.
Notation "x - y" := (fsub x y) : dbl_scope.
Notation "x * y" := (fmul x y) : dbl_scope.
Notation "x / y" := (fdiv x y) : dbl_scope.
Notation "- x" := (fneg x) : dbl_scope.
Notation "x >? y" := (fgt x y) (at level 70, no associativity) : dbl_scope.

(** ** Memory: buffers, faults and the program monad *)

Inductive fault : Type :=
  | Dangling        (* access through a pointer to no live block *)
  | OutOfBounds     (* index outside [0, length) *)
  | Uninitialised.  (* read of a cell never written since [malloc] *)

Abbreviation ptr := positive (only parsing).

(** A cell is [None] until its first write. *)
Abbreviation buffer T := (list (option T)) (only parsing).
Abbreviation heap T := (gmap ptr (buffer T)) (only parsing).

(** [a[i]] for a C [int] index: negative indices are outside every buffer. *)
Definition zlookup {A} (l : list A) (i : Z) : option A :=
  if decide (0 ≤ i)%Z then l !! Z.to_nat i else None.

Definition zinsert {A} (i : Z) (x : A) (l : list A) : list A :=
  <[Z.to_nat i := x]> l.

Section Program.
Context {T : Type} `{Arith T}.

Definition M (A : Type) : Type := heap T → fault + A * heap T.

Definition ret {A} (x : A) : M A := λ h, inr (x, h).

Definition bind {A B} (m : M A) (k : A → M B) : M B :=
  λ h, match m h with
       | inl e => inl e
       | inr (x, h') => k x h'
       end.

Notation "x <- m ;; k" := (bind m (λ x, k))
  (at level 100, m at next level, k at level 200, right associativity).
Notation "m ;;; k" := (bind m (λ _, k))
  (at level 100, k at level 200, right associativity).

(** [malloc(k * sizeof(double))]: a fresh block of [k] unwritten cells.
    Allocation failure is not modelled. *)
Definition malloc (k : Z) : M ptr :=
  λ h, let b := fresh (dom h) in inr (b, <[b := replicate (Z.to_nat k) None]> h).

Definition free (b : ptr) : M unit :=
  λ h, match h !! b with
       | Some _ => inr (tt, delete b h)
       | None => inl Dangling
       end.

Definition load (b : ptr) (i : Z) : M T :=
  λ h, match h !! b with
       | None => inl Dangling
       | Some buf =>
           match zlookup buf i with
           | None => inl OutOfBounds
           | Some None => inl Uninitialised
           | Some (Some x) => inr (x, h)
           end
       end.

Definition store (b : ptr) (i : Z) (x : T) : M unit :=
  λ h, match h !! b with
       | None => inl Dangling
       | Some buf =>
           if decide (0 ≤ i < Z.of_nat (length buf))%Z
           then inr (tt, <[b := zinsert i (Some x) buf]> h)
           else inl OutOfBounds
       end.

(** Counted loops over an [int] index.  The counters of [OptionPrice] stay
    within [0, n + 1], far from the limits of [int]. *)
Fixpoint iter_up (cnt : nat) (i : Z) (body : Z → M unit) : M unit :=
  match cnt with
  | O => ret tt
  | S c => body i ;;; iter_up c (i + 1) body
  end.

Fixpoint iter_down (cnt : nat) (i : Z) (body : Z → M unit) : M unit :=
  match cnt with
  | O => ret tt
  | S c => body i ;;; iter_down c (i - 1) body
  end.

(** [for (i = lo; i <= hi; i++) body] *)
Definition for_le (lo hi : Z) (body : Z → M unit) : M unit :=
  iter_up (Z.to_nat (hi + 1 - lo)) lo body.

(** [for (i = lo; i < hi; i++) body] *)
Definition for_lt (lo hi : Z) (body : Z → M unit) : M unit :=
  iter_up (Z.to_nat (hi - lo)) lo body.

(** [for (i = hi; i >= lo; i--) body] *)
Definition for_ge (hi lo : Z) (body : Z → M unit) : M unit :=
  iter_down (Z.to_nat (hi + 1 - lo)) hi body.

(** ** The program *)

(** [typedef struct option {...} option;] *)
Record option_ : Type := mk_option {
  asset : T;
  strike : T;
  expiry : T;
  rate : T;
  volatility : T
}.

Local Open Scope dbl_scope.

(** [double Payoff(double price, double strike)] *)
Definition Payoff (price strike : T) : T :=
  if price >? strike then price - strike else of_int 0.

(** The constants computed in the declarations of [OptionPrice]. *)
Record lattice : Type := mk_lattice {
  l_step : T;
  l_discount : T;
  l_ufactor : T;
  l_u : T;
  l_v : T;
  l_p : T
}.

Definition lattice_of (n : Z) (opt : option_) : lattice :=
  let step := expiry opt / of_int n in
  let discount := fexp (- rate opt * step) in
  let ufactor :=
    half * (discount + fexp ((rate opt + volatility opt * volatility opt) * step)) in
  let u := ufactor + fsqrt (ufactor * ufactor - of_int 1) in
  let v := of_int 1 / u in
  let p := (fexp (rate opt * step) - v) / (u - v) in
  mk_lattice step discount ufactor u v p.

(** "build binomial coefficients at the expiry level" *)
Definition build_lattice (n : Z) (assetPrices : ptr) (u v : T) (asset0 : T) : M unit :=
  store assetPrices 0 asset0 ;;;
  for_le 1 n (λ idx,
    for_ge idx 1 (λ jdx,
      x <- load assetPrices (jdx - 1) ;;
      store assetPrices jdx (u * x)) ;;;
    x <- load assetPrices 0 ;;
    store assetPrices 0 (v * x)).

(** "calculate payoffs at expiry" *)
Definition terminal_payoffs (n : Z) (assetPrices optionPrices : ptr) (strike0 : T) : M unit :=
  for_le 0 n (λ jdx,
    x <- load assetPrices jdx ;;
    store optionPrices jdx (Payoff x strike0)).

(** One node of the backward induction. *)
Definition node (discount p : T) (up same : T) : T :=
  discount * (p * up + (of_int 1 - p) * same).

(** "backpropogate the option price to current value" *)
Definition backpropagate (n : Z) (optionPrices : ptr) (discount p : T) : M unit :=
  for_ge n 1 (λ idx,
    for_lt 0 n (λ jdx,
      x1 <- load optionPrices (jdx + 1) ;;
      x0 <- load optionPrices jdx ;;
      store optionPrices jdx (node discount p x1 x0))).

(** [OptionPrice] with the step count [n] as a parameter. *)
Definition OptionPrice_steps (n : Z) (opt : option_) : M T :=
  let c := lattice_of n opt in
  assetPrices <- malloc (n + 1) ;;
  optionPrices <- malloc (n + 1) ;;
  build_lattice n assetPrices (l_u c) (l_v c) (asset opt) ;;;
  terminal_payoffs n assetPrices optionPrices (strike opt) ;;;
  backpropagate n optionPrices (l_discount c) (l_p c) ;;;
  price <- load optionPrices 0 ;;
  free assetPrices ;;;
  free optionPrices ;;;
  ret price.

(** [double OptionPrice(option opt)], with [const int n = 1000]. *)
Definition OptionPrice (opt : option_) : M T := OptionPrice_steps 1000 opt.

(** ** The backward induction as the specification words it

    "for [step] from n down to 1, for each node [j] from 0 to step-1, set
    [value[j] = discount * (p * value[j+1] + (1-p) * value[j])]": the inner
    bound shrinks with the pass, where the C loop always runs to [n - 1]. *)
Definition backpropagate_spec (n : Z) (value : ptr) (discount p : T) : M unit :=
  for_ge n 1 (λ step,
    for_le 0 (step - 1) (λ j,
      x1 <- load value (j + 1) ;;
      x0 <- load value j ;;
      store value j (node discount p x1 x0))).

Definition OptionPrice_spec (n : Z) (opt : option_) : M T :=
  let c := lattice_of n opt in
  assetPrices <- malloc (n + 1) ;;
  value <- malloc (n + 1) ;;
  build_lattice n assetPrices (l_u c) (l_v c) (asset opt) ;;;
  terminal_payoffs n assetPrices value (strike opt) ;;;
  backpropagate_spec n value (l_discount c) (l_p c) ;;;
  price <- load value 0 ;;
  free assetPrices ;;;
  free value ;;;
  ret price.

(** ** Contents of the buffers, cell by cell

    These functions describe what the loops leave in each cell; the
    theorems below prove that the program computes them. *)

(** Cell [j] of [assetPrices] after [k] forward steps. *)
Fixpoint lattice_cell (u v asset0 : T) (k j : nat) : T :=
  match k with
  | O => asset0
  | S k' =>
      match j with
      | O => v * lattice_cell u v asset0 k' O
      | S j' => u * lattice_cell u v asset0 k' j'
      end
  end.

(** One backward pass whose inner loop stops before [bound]. *)
Definition pass_cell (f : T → T → T) (bound : nat) (old : nat → T) (j : nat) : T :=
  if decide (j < bound)%nat then f (old (S j)) (old j) else old j.

(** Cell [j] of [optionPrices] after [k] passes of the C loop. *)
Fixpoint induct_cell (f : T → T → T) (n : nat) (g : nat → T) (k : nat) : nat → T :=
  match k with
  | O => g
  | S k' => pass_cell f n (induct_cell f n g k')
  end.

(** The same after [k] passes of the specification's loop: pass number
    [k' + 1] has [step = n - k']. *)
Fixpoint induct_cell_spec (f : T → T → T) (n : nat) (g : nat → T) (k : nat) : nat → T :=
  match k with
  | O => g
  | S k' => pass_cell f (n - k') (induct_cell_spec f n g k')
  end.

Definition terminal_cell (n : nat) (c : lattice) (opt : option_) (j : nat) : T :=
  Payoff (lattice_cell (l_u c) (l_v c) (asset opt) n j) (strike opt).

(** The value [OptionPrice_steps n opt] returns. *)
Definition price_of (n : Z) (opt : option_) : T :=
  let c := lattice_of n opt in
  induct_cell (node (l_discount c) (l_p c)) (Z.to_nat n)
    (terminal_cell (Z.to_nat n) c opt) (Z.to_nat n) O.

End Program.

Arguments option_ T : clear implicits.
Arguments lattice T : clear implicits.
Arguments M T A : clear implicits.

(** ** Real numbers with an invalid value *)

Inductive dbl : Type :=
  | Fin (x : R)
  | NaN.

Definition lift1 (f : R → R) (a : dbl) : dbl :=
  match a with Fin x => Fin (f x) | NaN => NaN end.

Definition lift2 (f : R → R → R) (a b : dbl) : dbl :=
  match a, b with Fin x, Fin y => Fin (f x y) | _, _ => NaN end.

(** A quotient with a zero divisor is invalid.  (IEEE gives an infinity
    when only the divisor is zero; [admissible_quotients] shows that
    [OptionPrice] never forms such a quotient on admissible parameters.) *)
Definition ddiv (a b : dbl) : dbl :=
  match a, b with
  | Fin x, Fin y => if Req_dec_T y 0 then NaN else Fin (x / y)
  | _, _ => NaN
  end.

Definition dsqrt (a : dbl) : dbl :=
  match a with
  | Fin x => if Rlt_dec x 0 then NaN else Fin (sqrt x)
  | NaN => NaN
  end.

(** Every comparison with [NaN] is false. *)
Definition dgt (a b : dbl) : bool :=
  match a, b with
  | Fin x, Fin y => if Rlt_dec y x then true else false
  | _, _ => false
  end.

#[export] Instance dbl_arith : Arith dbl := {
  of_int z := Fin (IZR z);
  half := Fin (1 / 2);
  fadd := lift2 Rplus;
  fsub := lift2 Rminus;
  fmul := lift2 Rmult;
  fdiv := ddiv;
  fneg := lift1 Ropp;
  fexp := lift1 exp;
  fsqrt := dsqrt;
  fgt := dgt
}.

(** ** IEEE binary64

    The hardware operations of [double]; [exp] comes from the C library
    and is a parameter. *)

Module Binary64.
Import PrimFloat.

Definition int_to_double (z : Z) : float :=
  if (z <? 0)%Z
  then opp (of_uint63 (Uint63.of_Z (- z)))
  else of_uint63 (Uint63.of_Z z).

Definition arith (libm_exp : float → float) : Arith float := {|
  of_int := int_to_double;
  half := 0.5%float;
  fadd := add;
  fsub := sub;
  fmul := mul;
  fdiv := div;
  fneg := opp;
  fexp := libm_exp;
  fsqrt := sqrt;
  fgt x y := ltb y x
|}.

End Binary64.


(** An option whose five fields are the given real numbers. *)
Definition real_option (asset0 strike0 expiry0 rate0 volatility0 : R) : option_ dbl :=
  mk_option (Fin asset0) (Fin strike0) (Fin expiry0) (Fin rate0) (Fin volatility0).

(** The invariant of the data model: "[expiry > 0], [asset > 0],
    [strike > 0], [volatility >= 0]". *)
Definition admissible (asset0 strike0 expiry0 volatility0 : R) : Prop :=
  (0 < asset0 ∧ 0 < strike0 ∧ 0 < expiry0 ∧ 0 <= volatility0)%R.

(** ** The lattice constants as the specification gives them *)

Section SpecFormulas.
Local Open Scope R_scope.
Variables (n : Z) (expiry0 rate0 volatility0 : R).


End SpecFormulas.

(** ** What the code computes on real parameters

    The expressions of [lattice_of], node for node, over [R]; the theorems
    show where they are the values of the program and where the program
    yields [NaN] instead. *)

Section RealFormulas.
Local Open Scope R_scope.
Variables (n : Z) (expiry0 rate0 volatility0 : R).

Definition step_R : R := expiry0 / IZR n.
Definition discount_R : R := exp (- rate0 * step_R).
Definition ufactor_R : R :=
  1 / 2 * (discount_R + exp ((rate0 + volatility0 * volatility0) * step_R)).
Definition u_R : R := ufactor_R + sqrt (ufactor_R * ufactor_R - 1).
Definition v_R : R := 1 / u_R.

End RealFormulas.


(** Cell [j] of the forward lattice after [k] steps, in closed form; cells
    beyond [k] are never read. *)
Definition lattice_R (u v asset0 : R) (k j : nat) : R :=
  (asset0 * u ^ (j `min` k) * v ^ (k - j))%R.




(** ** The driver [main]

    The console is a list of the numbers that the successive
    [scanf("%lf", ...)] calls convert (when the list is exhausted a
    conversion fails, stores nothing, and so does every later one) and a
    list of the items printed.  Conversion from and to decimal text is not
    modelled: an input item is the [double] stored, an output item the
    [double] passed to [printf] together with its format. *)

Module Console.
Import String Ascii.
Local Open Scope string_scope.

Definition newline : string := String "010"%char EmptyString.
Definition ask_asset : string := "Enter the asset price: ".
Definition ask_strike : string := "Enter the strike price: ".
Definition ask_expiry : string := "Enter the expiry in months: ".
Definition ask_rate : string := "Enter the interest rate as a percent: ".
Definition ask_volatility : string := "Enter the volatility: ".
Definition blank_lines : string := newline ++ newline.
Definition value_label : string := "The value of your option is: ".

End Console.

Section Driver.
Context {T : Type} `{Arith T}.

Inductive output : Type :=
  | Text (s : String.string)     (* literal text of a format string *)
  | Fixed2 (x : T).              (* a [double] printed with [%.2lf] *)

Record world : Type := mk_world {
  stdin : list T;
  stdout : list output;
  memory : heap T
}.

Definition IO (A : Type) : Type := world → fault + A * world.

Definition io_ret {A} (x : A) : IO A := λ w, inr (x, w).

Definition io_bind {A B} (m : IO A) (k : A → IO B) : IO B :=
  λ w, match m w with
       | inl e => inl e
       | inr (x, w') => k x w'
       end.

Definition print (o : output) : IO unit :=
  λ w, inr (tt, mk_world (stdin w) (stdout w ++ [o]) (memory w)).

(** [scanf("%lf", &field)]: the new content of the field, [None] when
    nothing was stored in it. *)
Definition scanf_lf : IO (option T) :=
  λ w, match stdin w with
       | [] => inr (None, w)
       | x :: rest => inr (Some x, mk_world rest (stdout w) (memory w))
       end.

(** Use of a field of the local [opt], which no initialiser filled. *)
Definition field (f : option T) : IO T :=
  λ w, match f with
       | Some x => inr (x, w)
       | None => inl Uninitialised
       end.

(** A call into the pricing code, which sees the memory only. *)
Definition call {A} (m : M T A) : IO A :=
  λ w, match m (memory w) with
       | inl e => inl e
       | inr (x, h') => inr (x, mk_world (stdin w) (stdout w) h')
       end.

Local Open Scope dbl_scope.

(** [int main()] *)
Definition main : IO Z :=
  io_bind (print (Text Console.ask_asset)) (λ _,
  io_bind scanf_lf (λ opt_asset,
  io_bind (print (Text Console.ask_strike)) (λ _,
  io_bind scanf_lf (λ opt_strike,
  io_bind (print (Text Console.ask_expiry)) (λ _,
  io_bind scanf_lf (λ opt_expiry,
  io_bind (print (Text Console.ask_rate)) (λ _,
  io_bind scanf_lf (λ opt_rate,
  io_bind (print (Text Console.ask_volatility)) (λ _,
  io_bind scanf_lf (λ opt_volatility,
  io_bind (print (Text Console.blank_lines)) (λ _,
  io_bind (field opt_rate) (λ r,
  let opt_rate := r / of_int 100 in
  io_bind (field opt_expiry) (λ e,
  let opt_expiry := e / of_int 12 in
  io_bind (field opt_asset) (λ a,
  io_bind (field opt_strike) (λ k,
  io_bind (field opt_volatility) (λ s,
  io_bind (call (OptionPrice (mk_option a k opt_expiry opt_rate s))) (λ price,
  io_bind (print (Text Console.value_label)) (λ _,
  io_bind (print (Fixed2 price)) (λ _,
  io_bind (print (Text Console.newline)) (λ _,
  io_ret 0%Z)))))))))))))))))))).

End Driver.

Arguments output T : clear implicits.
Arguments world T : clear implicits.
Arguments IO T A : clear implicits.

(** ** The binomial law

    Used to state what the backward induction computes. *)

(** Pascal's triangle. *)
Fixpoint binom (n k : nat) : nat :=
  match n, k with
  | _, O => 1
  | O, S _ => 0
  | S n', S k' => binom n' k' + binom n' (S k')
  end.


(** * Verification *)

(** ** Indexing with [int] *)

Lemma zlookup_nat {A} (l : list A) (i : Z) :
  (0 ≤ i)%Z → zlookup l i = l !! Z.to_nat i.
Proof. intros Hi. unfold zlookup. by rewrite decide_True. Qed.

Lemma zlookup_zinsert_eq {A} (l : list A) (i : Z) (x : A) :
  (0 ≤ i < Z.of_nat (length l))%Z → zlookup (zinsert i x l) i = Some x.
Proof.
  intros Hi. rewrite zlookup_nat by lia. unfold zinsert.
  apply list_lookup_insert_eq. lia.
Qed.

Lemma zlookup_zinsert_ne {A} (l : list A) (i j : Z) (x : A) :
  (0 ≤ i)%Z → i ≠ j → zlookup (zinsert i x l) j = zlookup l j.
Proof.
  intros Hi Hne. unfold zlookup, zinsert. case_decide; [|done].
  apply list_lookup_insert_ne. lia.
Qed.

Lemma length_zinsert {A} (l : list A) (i : Z) (x : A) :
  length (zinsert i x l) = length l.
Proof. apply length_insert. Qed.

(** ** Rules for the program monad *)

Section Rules.
Context {T : Type} `{Arith T}.
Implicit Types (h : heap T) (B : buffer T) (a : ptr).

Lemma load_ok h a B i x :
  h !! a = Some B → zlookup B i = Some (Some x) → load a i h = inr (x, h).
Proof. intros Ha Hi. unfold load. by rewrite Ha, Hi. Qed.

Lemma store_ok h a B i x :
  h !! a = Some B → (0 ≤ i < Z.of_nat (length B))%Z →
  store a i x h = inr (tt, <[a := zinsert i (Some x) B]> h).
Proof. intros Ha Hi. unfold store. rewrite Ha. by rewrite decide_True. Qed.

Lemma bind_ok {A C} (m : M T A) (k : A → M T C) h x h' :
  m h = inr (x, h') → bind m k h = k x h'.
Proof. intros Hm. unfold bind. by rewrite Hm. Qed.

(** Invariant rule for an ascending loop: no iteration faults and the
    invariant travels from [lo] to [lo + cnt]. *)
Lemma iter_up_inv (I : Z → heap T → Prop) (body : Z → M T unit) cnt lo h :
  I lo h →
  (∀ i h1, (lo ≤ i < lo + Z.of_nat cnt)%Z → I i h1 →
           ∃ h2, body i h1 = inr (tt, h2) ∧ I (i + 1)%Z h2) →
  ∃ h', iter_up cnt lo body h = inr (tt, h') ∧ I (lo + Z.of_nat cnt)%Z h'.
Proof.
  revert lo h. induction cnt as [|c IH]; intros lo h HI Hbody; simpl.
  - exists h. split; [done|]. by replace (lo + Z.of_nat 0)%Z with lo by lia.
  - destruct (Hbody lo h) as (h2 & Hrun & HI2); [lia|done|].
    rewrite (bind_ok _ _ _ _ _ Hrun).
    destruct (IH (lo + 1)%Z h2 HI2) as (h' & Hrest & HI').
    { intros i h1 Hi. apply Hbody. lia. }
    exists h'. split; [done|].
    by replace (lo + Z.of_nat (S c))%Z with (lo + 1 + Z.of_nat c)%Z by lia.
Qed.

(** The same for a descending loop, from [hi] down to [hi - cnt]. *)
Lemma iter_down_inv (I : Z → heap T → Prop) (body : Z → M T unit) cnt hi h :
  I hi h →
  (∀ i h1, (hi - Z.of_nat cnt < i ≤ hi)%Z → I i h1 →
           ∃ h2, body i h1 = inr (tt, h2) ∧ I (i - 1)%Z h2) →
  ∃ h', iter_down cnt hi body h = inr (tt, h') ∧ I (hi - Z.of_nat cnt)%Z h'.
Proof.
  revert hi h. induction cnt as [|c IH]; intros hi h HI Hbody; simpl.
  - exists h. split; [done|]. by replace (hi - Z.of_nat 0)%Z with hi by lia.
  - destruct (Hbody hi h) as (h2 & Hrun & HI2); [lia|done|].
    rewrite (bind_ok _ _ _ _ _ Hrun).
    destruct (IH (hi - 1)%Z h2 HI2) as (h' & Hrest & HI').
    { intros i h1 Hi. apply Hbody. lia. }
    exists h'. split; [done|].
    by replace (hi - Z.of_nat (S c))%Z with (hi - 1 - Z.of_nat c)%Z by lia.
Qed.

End Rules.

(** ** The three phases of [OptionPrice] *)

Section Phases.
Context {T : Type} `{Arith T}.
Implicit Types (h : heap T) (B : buffer T) (a : ptr).

(** The forward construction writes [lattice_cell n j] into every cell
    [j] of [0..n], and faults nowhere. *)
Lemma build_lattice_ok (n : Z) a (u v a0 : T) h B :
  (0 ≤ n)%Z → h !! a = Some B → length B = Z.to_nat (n + 1) →
  ∃ B', build_lattice n a u v a0 h = inr (tt, <[a := B']> h)
        ∧ length B' = length B
        ∧ ∀ i, (0 ≤ i ≤ n)%Z →
            zlookup B' i = Some (Some (lattice_cell u v a0 (Z.to_nat n) (Z.to_nat i))).
Proof.
  intros Hn Ha Hlen. unfold build_lattice.
  rewrite (bind_ok _ _ _ _ _ (store_ok h a B 0 a0 Ha ltac:(lia))).
  set (I := λ (idx : Z) (h' : heap T),
    ∃ B', h' = <[a := B']> h ∧ length B' = length B
          ∧ ∀ i, (0 ≤ i < idx)%Z →
              zlookup B' i
              = Some (Some (lattice_cell u v a0 (Z.to_nat (idx - 1)) (Z.to_nat i)))).
  unfold for_le.
  edestruct (iter_up_inv I) as (h' & Hrun & B' & -> & Hlen' & Hcells); cycle 2.
  { rewrite Hrun. exists B'. split; [done|]. split; [done|].
    intros i Hi. rewrite Hcells by lia. do 3 f_equal. lia. }
  { exists (zinsert 0 (Some a0) B). split; [done|].
    split; [apply length_zinsert|].
    intros i Hi. replace i with 0%Z by lia.
    by rewrite zlookup_zinsert_eq by lia. }
  intros idx h1 Hidx (B1 & -> & Hlen1 & Hold).
  (* the inner loop shifts the row up by one slot *)
  set (J := λ (jdx : Z) (h' : heap T),
    ∃ B', h' = <[a := B']> h ∧ length B' = length B
          ∧ (∀ i, (0 ≤ i ≤ jdx)%Z → (i < idx)%Z →
               zlookup B' i
               = Some (Some (lattice_cell u v a0 (Z.to_nat (idx - 1)) (Z.to_nat i))))
          ∧ (∀ i, (jdx < i ≤ idx)%Z →
               zlookup B' i
               = Some (Some (lattice_cell u v a0 (Z.to_nat idx) (Z.to_nat i))))).
  unfold for_ge.
  edestruct (iter_down_inv J) as (h2 & Hrun & B2 & -> & Hlen2 & Hlow & Hhigh);
    cycle 2.
  { rewrite (bind_ok _ _ _ _ _ Hrun).
    erewrite (bind_ok (load a 0)); cycle 1.
    { eapply load_ok; [apply lookup_insert_eq|]. apply Hlow; lia. }
    erewrite store_ok; [|apply lookup_insert_eq|lia].
    eexists. split; [done|]. rewrite insert_insert_eq.
    exists (zinsert 0 (Some (fmul v (lattice_cell u v a0 (Z.to_nat (idx - 1)) (Z.to_nat 0)))) B2).
    split; [done|]. split; [by rewrite length_zinsert|].
    intros i Hi. replace (idx + 1 - 1)%Z with idx by lia.
    destruct (decide (i = 0%Z)) as [->|Hne].
    - rewrite zlookup_zinsert_eq by lia.
      replace (Z.to_nat idx) with (S (Z.to_nat (idx - 1))) by lia.
      done.
    - rewrite zlookup_zinsert_ne by done. apply Hhigh. lia. }
  { exists B1. split; [done|]. split; [done|]. split.
    - intros i Hi Hi'. apply Hold. lia.
    - intros i Hi. lia. }
  intros jdx h2 Hjdx (B2 & -> & Hlen2 & Hlow & Hhigh).
  erewrite (bind_ok (load a (jdx - 1))); cycle 1.
  { eapply load_ok; [apply lookup_insert_eq|]. apply Hlow; lia. }
  erewrite store_ok; [|apply lookup_insert_eq|lia].
  eexists. split; [done|]. rewrite insert_insert_eq.
  eexists. split; [done|]. split; [by rewrite length_zinsert|]. split.
  - intros i Hi Hi'. rewrite zlookup_zinsert_ne by lia. apply Hlow; lia.
  - intros i Hi. destruct (decide (i = jdx)) as [->|Hne].
    + rewrite zlookup_zinsert_eq by lia.
      replace (Z.to_nat idx) with (S (Z.to_nat (idx - 1))) by lia.
      replace (Z.to_nat jdx) with (S (Z.to_nat (jdx - 1))) by lia.
      done.
    + rewrite zlookup_zinsert_ne by lia. apply Hhigh. lia.
Qed.

(** The payoff loop reads every cell of a fully written [assetPrices] and
    fills [optionPrices]. *)
Lemma terminal_payoffs_ok (n : Z) a1 a2 (k0 : T) (c : nat → T) h B1 B2 :
  (0 ≤ n)%Z → a1 ≠ a2 → h !! a1 = Some B1 → h !! a2 = Some B2 →
  length B2 = Z.to_nat (n + 1) →
  (∀ i, (0 ≤ i ≤ n)%Z → zlookup B1 i = Some (Some (c (Z.to_nat i)))) →
  ∃ B', terminal_payoffs n a1 a2 k0 h = inr (tt, <[a2 := B']> h)
        ∧ length B' = length B2
        ∧ ∀ i, (0 ≤ i ≤ n)%Z →
            zlookup B' i = Some (Some (Payoff (c (Z.to_nat i)) k0)).
Proof.
  intros Hn Hne Ha1 Ha2 Hlen Hsrc. unfold terminal_payoffs, for_le.
  set (I := λ (jdx : Z) (h' : heap T),
    ∃ B', h' = <[a2 := B']> h ∧ length B' = length B2
          ∧ ∀ i, (0 ≤ i < jdx)%Z →
              zlookup B' i = Some (Some (Payoff (c (Z.to_nat i)) k0))).
  edestruct (iter_up_inv I) as (h' & Hrun & B' & -> & Hlen' & Hcells); cycle 2.
  { rewrite Hrun. exists B'. split; [done|]. split; [done|].
    intros i Hi. apply Hcells. lia. }
  { exists B2. split; [by rewrite insert_id|]. split; [done|]. intros i Hi. lia. }
  intros jdx h1 Hjdx (B' & -> & Hlen' & Hcells).
  erewrite (bind_ok (load a1 jdx)); cycle 1.
  { eapply load_ok; [by rewrite lookup_insert_ne|]. apply Hsrc. lia. }
  erewrite store_ok; [|apply lookup_insert_eq|lia].
  eexists. split; [done|]. rewrite insert_insert_eq.
  eexists. split; [done|]. split; [by rewrite length_zinsert|].
  intros i Hi. destruct (decide (i = jdx)) as [->|Hne'].
  - by rewrite zlookup_zinsert_eq by lia.
  - rewrite zlookup_zinsert_ne by lia. apply Hcells. lia.
Qed.

(** One pass of the backward induction whose inner loop covers the
    indices [0 .. bound - 1], with [bound <= n]: cell [j + 1] is still the
    old one when cell [j] is rewritten. *)
Lemma pass_ok (n bound cnt : Z) a (f : T → T → T) (old : nat → T) h B :
  (0 ≤ bound ≤ n)%Z → cnt = bound →
  h !! a = Some B → length B = Z.to_nat (n + 1) →
  (∀ i, (0 ≤ i ≤ n)%Z → zlookup B i = Some (Some (old (Z.to_nat i)))) →
  ∃ B', iter_up (Z.to_nat cnt) 0
          (λ jdx, bind (load a (jdx + 1)) (λ x1,
                  bind (load a jdx) (λ x0,
                  store a jdx (f x1 x0)))) h
        = inr (tt, <[a := B']> h)
        ∧ length B' = length B
        ∧ ∀ i, (0 ≤ i ≤ n)%Z →
            zlookup B' i
            = Some (Some (pass_cell f (Z.to_nat bound) old (Z.to_nat i))).
Proof.
  intros Hb -> Ha Hlen Hold.
  set (I := λ (jdx : Z) (h' : heap T),
    ∃ B', h' = <[a := B']> h ∧ length B' = length B
          ∧ (∀ i, (0 ≤ i < jdx)%Z →
               zlookup B' i
               = Some (Some (pass_cell f (Z.to_nat bound) old (Z.to_nat i))))
          ∧ (∀ i, (jdx ≤ i ≤ n)%Z →
               zlookup B' i = Some (Some (old (Z.to_nat i))))).
  edestruct (iter_up_inv I) as (h' & Hrun & B' & -> & Hlen' & Hnew & Hrest);
    cycle 2.
  { rewrite Hrun. exists B'. split; [done|]. split; [done|].
    intros i Hi. destruct (decide (i < bound)%Z).
    - apply Hnew. lia.
    - rewrite Hrest by lia. unfold pass_cell. by rewrite decide_False by lia. }
  { exists B. split; [by rewrite insert_id|]. split; [done|].
    split; [intros i Hi; lia|]. intros i Hi. apply Hold. lia. }
  intros jdx h1 Hjdx (B' & -> & Hlen' & Hnew & Hrest).
  erewrite (bind_ok (load a (jdx + 1))); cycle 1.
  { eapply load_ok; [apply lookup_insert_eq|]. apply Hrest. lia. }
  erewrite (bind_ok (load a jdx)); cycle 1.
  { eapply load_ok; [apply lookup_insert_eq|]. apply Hrest. lia. }
  erewrite store_ok; [|apply lookup_insert_eq|lia].
  eexists. split; [done|]. rewrite insert_insert_eq.
  eexists. split; [done|]. split; [by rewrite length_zinsert|]. split.
  - intros i Hi. destruct (decide (i = jdx)) as [->|Hne].
    + rewrite zlookup_zinsert_eq by lia. unfold pass_cell.
      rewrite decide_True by lia.
      by replace (Z.to_nat (jdx + 1)) with (S (Z.to_nat jdx)) by lia.
    + rewrite zlookup_zinsert_ne by lia. apply Hnew. lia.
  - intros i Hi. rewrite zlookup_zinsert_ne by lia. apply Hrest. lia.
Qed.

(** The C loop: [n] passes, each over [0 .. n - 1]. *)
Lemma backpropagate_ok (n : Z) a (d p : T) (g : nat → T) h B :
  (0 ≤ n)%Z → h !! a = Some B → length B = Z.to_nat (n + 1) →
  (∀ i, (0 ≤ i ≤ n)%Z → zlookup B i = Some (Some (g (Z.to_nat i)))) →
  ∃ B', backpropagate n a d p h = inr (tt, <[a := B']> h)
        ∧ length B' = length B
        ∧ ∀ i, (0 ≤ i ≤ n)%Z →
            zlookup B' i
            = Some (Some (induct_cell (node d p) (Z.to_nat n) g (Z.to_nat n) (Z.to_nat i))).
Proof.
  intros Hn Ha Hlen Hg. unfold backpropagate, for_ge.
  set (I := λ (idx : Z) (h' : heap T),
    ∃ B', h' = <[a := B']> h ∧ length B' = length B
          ∧ ∀ i, (0 ≤ i ≤ n)%Z →
              zlookup B' i
              = Some (Some (induct_cell (node d p) (Z.to_nat n) g
                              (Z.to_nat (n - idx)) (Z.to_nat i)))).
  edestruct (iter_down_inv I) as (h' & Hrun & B' & -> & Hlen' & Hcells); cycle 2.
  { rewrite Hrun. exists B'. split; [done|]. split; [done|].
    intros i Hi. rewrite Hcells by lia. do 3 f_equal. lia. }
  { exists B. split; [by rewrite insert_id|]. split; [done|].
    intros i Hi. replace (n - n)%Z with 0%Z by lia. by apply Hg. }
  intros idx h1 Hidx (B' & -> & Hlen' & Hcells).
  unfold for_lt.
  edestruct (pass_ok n n (n - 0) a (node d p)) as (B2 & Hrun & Hlen2 & Hcells2);
    [| |apply lookup_insert_eq| |exact Hcells|]; [lia..|].
  rewrite Hrun. eexists. split; [done|]. rewrite insert_insert_eq.
  exists B2. split; [done|]. split; [lia|].
  intros i Hi. rewrite Hcells2 by lia.
  by replace (Z.to_nat (n - (idx - 1))) with (S (Z.to_nat (n - idx))) by lia.
Qed.

(** The specification's loop: pass [step] covers [0 .. step - 1]. *)
Lemma backpropagate_spec_ok (n : Z) a (d p : T) (g : nat → T) h B :
  (0 ≤ n)%Z → h !! a = Some B → length B = Z.to_nat (n + 1) →
  (∀ i, (0 ≤ i ≤ n)%Z → zlookup B i = Some (Some (g (Z.to_nat i)))) →
  ∃ B', backpropagate_spec n a d p h = inr (tt, <[a := B']> h)
        ∧ length B' = length B
        ∧ ∀ i, (0 ≤ i ≤ n)%Z →
            zlookup B' i
            = Some (Some (induct_cell_spec (node d p) (Z.to_nat n) g (Z.to_nat n) (Z.to_nat i))).
Proof.
  intros Hn Ha Hlen Hg. unfold backpropagate_spec, for_ge.
  set (I := λ (idx : Z) (h' : heap T),
    ∃ B', h' = <[a := B']> h ∧ length B' = length B
          ∧ ∀ i, (0 ≤ i ≤ n)%Z →
              zlookup B' i
              = Some (Some (induct_cell_spec (node d p) (Z.to_nat n) g
                              (Z.to_nat (n - idx)) (Z.to_nat i)))).
  edestruct (iter_down_inv I) as (h' & Hrun & B' & -> & Hlen' & Hcells); cycle 2.
  { rewrite Hrun. exists B'. split; [done|]. split; [done|].
    intros i Hi. rewrite Hcells by lia. do 3 f_equal. lia. }
  { exists B. split; [by rewrite insert_id|]. split; [done|].
    intros i Hi. replace (n - n)%Z with 0%Z by lia. by apply Hg. }
  intros idx h1 Hidx (B' & -> & Hlen' & Hcells).
  unfold for_le.
  edestruct (pass_ok n idx (idx - 1 + 1 - 0) a (node d p))
    as (B2 & Hrun & Hlen2 & Hcells2);
    [| |apply lookup_insert_eq| |exact Hcells|]; [lia..|].
  rewrite Hrun. eexists. split; [done|]. rewrite insert_insert_eq.
  exists B2. split; [done|]. split; [lia|].
  intros i Hi. rewrite Hcells2 by lia.
  replace (Z.to_nat (n - (idx - 1))) with (S (Z.to_nat (n - idx))) by lia.
  simpl. do 3 f_equal. lia.
Qed.

End Phases.

(** ** The whole call *)

Section Call.
Context {T : Type} `{Arith T}.
Implicit Types (h : heap T) (B : buffer T).

(** Both buffers are fresh, and freeing them gives the caller's heap back. *)
Lemma heap_restored h (b1 b2 : ptr) (X1 X2 X3 X4 X5 : buffer T) :
  h !! b1 = None → h !! b2 = None →
  delete b2 (delete b1
    (<[b2 := X5]> (<[b2 := X4]> (<[b1 := X3]> (<[b2 := X2]> (<[b1 := X1]> h))))))
  = h.
Proof.
  intros H1 H2. apply map_eq. intros i.
  destruct (decide (i = b2)) as [->|?]; [by rewrite lookup_delete_eq|].
  rewrite lookup_delete_ne by done.
  destruct (decide (i = b1)) as [->|?]; [by rewrite lookup_delete_eq|].
  rewrite lookup_delete_ne by done.
  by rewrite !lookup_insert_ne by done.
Qed.

(** The frame of [OptionPrice] around an arbitrary backward phase. *)
Lemma call_frame (bp : Z → ptr → T → T → M T unit)
    (cellf : (T → T → T) → nat → (nat → T) → nat → nat → T) (n : Z) opt h :
  (0 ≤ n)%Z →
  (∀ a d p g h1 B, h1 !! a = Some B → length B = Z.to_nat (n + 1) →
     (∀ i, (0 ≤ i ≤ n)%Z → zlookup B i = Some (Some (g (Z.to_nat i)))) →
     ∃ B', bp n a d p h1 = inr (tt, <[a := B']> h1)
           ∧ length B' = length B
           ∧ ∀ i, (0 ≤ i ≤ n)%Z →
               zlookup B' i
               = Some (Some (cellf (node d p) (Z.to_nat n) g (Z.to_nat n) (Z.to_nat i)))) →
  (let c := lattice_of n opt in
   bind (malloc (n + 1)) (λ assetPrices,
   bind (malloc (n + 1)) (λ optionPrices,
   bind (build_lattice n assetPrices (l_u c) (l_v c) (asset opt)) (λ _,
   bind (terminal_payoffs n assetPrices optionPrices (strike opt)) (λ _,
   bind (bp n optionPrices (l_discount c) (l_p c)) (λ _,
   bind (load optionPrices 0) (λ price,
   bind (free assetPrices) (λ _,
   bind (free optionPrices) (λ _,
   ret price))))))))) h
  = inr (let c := lattice_of n opt in
         cellf (node (l_discount c) (l_p c)) (Z.to_nat n)
           (terminal_cell (Z.to_nat n) c opt) (Z.to_nat n) O, h).
Proof.
  intros Hn Hbp. cbv zeta. set (c := lattice_of n opt).
  unfold bind at 1, malloc at 1. cbv zeta.
  set (b1 := fresh (dom h)).
  assert (Hb1 : h !! b1 = None).
  { apply not_elem_of_dom. apply is_fresh. }
  set (h1 := <[b1 := replicate (Z.to_nat (n + 1)) None]> h).
  unfold bind at 1, malloc at 1. cbv zeta.
  set (b2 := fresh (dom h1)).
  assert (Hb2 : h1 !! b2 = None).
  { apply not_elem_of_dom. apply is_fresh. }
  assert (Hne : b1 ≠ b2).
  { intros Heq. rewrite <- Heq in Hb2. unfold h1 in Hb2.
    by rewrite lookup_insert_eq in Hb2. }
  assert (Hb2' : h !! b2 = None).
  { unfold h1 in Hb2. by rewrite lookup_insert_ne in Hb2. }
  set (h2 := <[b2 := replicate (Z.to_nat (n + 1)) None]> h1).
  destruct (build_lattice_ok n b1 (l_u c) (l_v c) (asset opt) h2
              (replicate (Z.to_nat (n + 1)) None))
    as (B1 & Hrun1 & Hlen1 & Hcells1); [done| |by rewrite length_replicate|].
  { unfold h2, h1. rewrite lookup_insert_ne by done. apply lookup_insert_eq. }
  rewrite (bind_ok _ _ _ _ _ Hrun1).
  destruct (terminal_payoffs_ok n b1 b2 (strike opt)
              (lattice_cell (l_u c) (l_v c) (asset opt) (Z.to_nat n))
              (<[b1 := B1]> h2) B1 (replicate (Z.to_nat (n + 1)) None))
    as (B2 & Hrun2 & Hlen2 & Hcells2);
    [done|done|apply lookup_insert_eq| |by rewrite length_replicate|done|].
  { rewrite lookup_insert_ne by done. apply lookup_insert_eq. }
  rewrite (bind_ok _ _ _ _ _ Hrun2).
  destruct (Hbp b2 (l_discount c) (l_p c) (terminal_cell (Z.to_nat n) c opt)
              (<[b2 := B2]> (<[b1 := B1]> h2)) B2)
    as (B3 & Hrun3 & Hlen3 & Hcells3); [apply lookup_insert_eq| |done|].
  { by rewrite Hlen2, length_replicate. }
  rewrite (bind_ok _ _ _ _ _ Hrun3).
  erewrite (bind_ok (load b2 0)); cycle 1.
  { eapply load_ok; [apply lookup_insert_eq|]. apply Hcells3. lia. }
  unfold bind, free, ret.
  rewrite lookup_insert_ne by done.
  rewrite lookup_insert_ne by done.
  rewrite lookup_insert_eq.
  rewrite lookup_delete_ne by done.
  rewrite lookup_insert_eq.
  unfold h2, h1. by rewrite heap_restored.
Qed.

(** [OptionPrice_steps] returns [price_of] and leaves the heap as it found
    it, for every step count [n >= 0]. *)
Lemma OptionPrice_steps_run (n : Z) opt h :
  (0 ≤ n)%Z → OptionPrice_steps n opt h = inr (price_of n opt, h).
Proof.
  intros Hn. apply (call_frame backpropagate induct_cell n opt h Hn).
  intros a d p g h1 B. by apply backpropagate_ok.
Qed.

Lemma OptionPrice_spec_run (n : Z) opt h :
  (0 ≤ n)%Z →
  OptionPrice_spec n opt h
  = inr (let c := lattice_of n opt in
         induct_cell_spec (node (l_discount c) (l_p c)) (Z.to_nat n)
           (terminal_cell (Z.to_nat n) c opt) (Z.to_nat n) O, h).
Proof.
  intros Hn. apply (call_frame backpropagate_spec induct_cell_spec n opt h Hn).
  intros a d p g h1 B. by apply backpropagate_spec_ok.
Qed.

(** Where the two loops agree: after [k] passes, on the first
    [n + 1 - k] cells. *)
Lemma induct_cell_agree (f : T → T → T) (n : nat) (g : nat → T) k j :
  (j + k ≤ n)%nat → induct_cell f n g k j = induct_cell_spec f n g k j.
Proof.
  revert j. induction k as [|k IH]; intros j Hj; [done|].
  simpl. unfold pass_cell.
  rewrite !decide_True by lia.
  by rewrite !IH by lia.
Qed.

End Call.

(** ** Real-number facts behind the lattice constants *)

Section RealFacts.
Local Open Scope R_scope.

Lemma exp_pair_ge_2 (x y : R) : 0 <= y → 2 + y <= exp (- x) + exp (x + y).
Proof.
  intros Hy.
  pose proof (exp_ineq1_le (- x)). pose proof (exp_ineq1_le (x + y)). lra.
Qed.


(** The two roots [c ± sqrt (c² - 1)] of [X² - 2cX + 1] when [1 <= c]. *)
Section Roots.
Variable c : R.
Hypothesis Hc : 1 <= c.

Lemma root_gap_sq : sqrt (c * c - 1) * sqrt (c * c - 1) = c * c - 1.
Proof. apply sqrt_sqrt. nra. Qed.

Lemma root_gap_nonneg : 0 <= sqrt (c * c - 1).
Proof. apply sqrt_pos. Qed.


Lemma root_up_ge_1 : 1 <= c + sqrt (c * c - 1).
Proof. pose proof root_gap_nonneg. lra. Qed.

Lemma root_down_eq : 1 / (c + sqrt (c * c - 1)) = c - sqrt (c * c - 1).
Proof.
  pose proof root_gap_nonneg. pose proof root_gap_sq.
  field_simplify_eq; [nra|lra].
Qed.


(** A point where the polynomial is not positive lies between the roots. *)
Lemma root_between (A B : R) :
  0 < A → A <= B → 2 * c = 1 / A + B → c - sqrt (c * c - 1) <= A <= c + sqrt (c * c - 1).
Proof.
  intros HA HAB Hc2. pose proof root_gap_nonneg. pose proof root_gap_sq.
  assert (HAA : A * (1 / A) = 1) by (field; lra).
  assert (Hpoly : A * A - 2 * c * A + 1 <= 0) by nra.
  split.
  - destruct (Rle_or_lt (c - sqrt (c * c - 1)) A); [done|]. nra.
  - destruct (Rle_or_lt A (c + sqrt (c * c - 1))); [done|]. nra.
Qed.

End Roots.

(** The constants for a positive expiry, any rate and volatility, and at
    least one step. *)
Section Constants.
Variables (n : Z) (e r σ : R).
Hypothesis Hn : (1 ≤ n)%Z.
Hypothesis He : 0 < e.

Lemma IZR_steps_pos : 0 < IZR n.
Proof. apply IZR_lt. lia. Qed.

Lemma step_R_pos : 0 < step_R n e.
Proof. unfold step_R. apply Rdiv_lt_0_compat; [done|apply IZR_steps_pos]. Qed.

Lemma ufactor_R_ge_1 : 1 <= ufactor_R n e r σ.
Proof.
  unfold ufactor_R, discount_R. pose proof step_R_pos.
  pose proof (exp_pair_ge_2 (r * step_R n e) (σ * σ * step_R n e) ltac:(nra)) as Hs.
  replace (- r * step_R n e) with (- (r * step_R n e)) by ring.
  replace ((r + σ * σ) * step_R n e)
    with (r * step_R n e + σ * σ * step_R n e) by ring.
  nra.
Qed.


Lemma radicand_nonneg : 0 <= ufactor_R n e r σ * ufactor_R n e r σ - 1.
Proof. pose proof ufactor_R_ge_1. nra. Qed.

Lemma u_R_ge_1 : 1 <= u_R n e r σ.
Proof. apply root_up_ge_1, ufactor_R_ge_1. Qed.

Lemma v_R_eq :
  v_R n e r σ
  = ufactor_R n e r σ - sqrt (ufactor_R n e r σ * ufactor_R n e r σ - 1).
Proof. unfold v_R, u_R. apply root_down_eq, ufactor_R_ge_1. Qed.



Lemma growth_between :
  v_R n e r σ <= exp (r * step_R n e) <= u_R n e r σ.
Proof.
  rewrite v_R_eq. unfold u_R.
  apply (root_between _ ufactor_R_ge_1 _ (exp ((r + σ * σ) * step_R n e))).
  - apply exp_pos.
  - pose proof step_R_pos.
    destruct (Req_dec (σ * σ * step_R n e) 0) as [H0|H0].
    + right. f_equal. nra.
    + left. apply exp_increasing. nra.
  - unfold ufactor_R, discount_R.
    replace (- r * step_R n e) with (- (r * step_R n e)) by ring.
    rewrite exp_Ropp. field. pose proof (exp_pos (r * step_R n e)). lra.
Qed.



End Constants.
End RealFacts.

(** ** The program on real parameters *)

Section RealRun.
Local Open Scope R_scope.

Lemma ddiv_Fin (x y : R) : y ≠ 0 → ddiv (Fin x) (Fin y) = Fin (x / y).
Proof. intros Hy. unfold ddiv. by destruct (Req_dec_T y 0). Qed.

Lemma ddiv_zero (x : R) : ddiv (Fin x) (Fin 0) = NaN.
Proof. unfold ddiv. by destruct (Req_dec_T 0 0). Qed.

Lemma dsqrt_Fin (x : R) : 0 <= x → dsqrt (Fin x) = Fin (sqrt x).
Proof. intros Hx. unfold dsqrt. destruct (Rlt_dec x 0); [lra|done]. Qed.


(** The constants of [OptionPrice] on real parameters: five real numbers
    and one quotient. *)
Lemma lattice_of_real (n : Z) (a k e r σ : R) :
  (1 ≤ n)%Z → 0 < e →
  lattice_of n (real_option a k e r σ)
  = mk_lattice (Fin (step_R n e)) (Fin (discount_R n e r))
      (Fin (ufactor_R n e r σ)) (Fin (u_R n e r σ)) (Fin (v_R n e r σ))
      (ddiv (Fin (exp (r * step_R n e) - v_R n e r σ))
            (Fin (u_R n e r σ - v_R n e r σ))).
Proof.
  intros Hn He. unfold lattice_of. cbv zeta.
  pose proof (IZR_steps_pos n Hn).
  pose proof (radicand_nonneg n e r σ Hn He).
  pose proof (u_R_ge_1 n e r σ Hn He).
  cbn [fdiv fmul fadd fsub fneg fexp fsqrt of_int half dbl_arith
       expiry rate volatility real_option].
  rewrite ddiv_Fin by lra. fold (step_R n e). cbn [lift1 lift2].
  fold (discount_R n e r). fold (ufactor_R n e r σ).
  rewrite dsqrt_Fin by done. cbn [lift2]. fold (u_R n e r σ).
  rewrite ddiv_Fin by lra. fold (v_R n e r σ). done.
Qed.

Lemma lattice_cell_real (u v a : R) (k j : nat) :
  lattice_cell (Fin u) (Fin v) (Fin a) k j = Fin (lattice_R u v a k j).
Proof.
  revert j. induction k as [|k IH]; intros j.
  - cbn. unfold lattice_R. rewrite Nat.min_0_r, Nat.sub_0_l. cbn. f_equal. ring.
  - destruct j as [|j]; cbn [lattice_cell]; rewrite IH; cbn; f_equal;
      unfold lattice_R.
    + rewrite !Nat.min_0_l, !Nat.sub_0_r. cbn. ring.
    + replace (S j `min` S k)%nat with (S (j `min` k)) by lia.
      replace (S k - S j)%nat with (k - j)%nat by lia. cbn. ring.
Qed.

Lemma Payoff_real (x k : R) : Payoff (Fin x) (Fin k) = Fin (Rmax (x - k) 0).
Proof.
  unfold Payoff. cbn. unfold Rmax.
  destruct (Rlt_dec k x), (Rle_dec (x - k) 0); try done; f_equal; lra.
Qed.






End RealRun.

(** ** Order properties of the backward induction *)

Section Induction.
Local Open Scope R_scope.
Variables (d p : R) (n : nat).
Hypothesis Hd : 0 <= d.
Hypothesis Hp : 0 <= p <= 1.







End Induction.




(** ** The up-factor as a function of the volatility *)

Section Continuity.
Local Open Scope R_scope.
Variables (n : Z) (e r : R).




End Continuity.

(** ** Prices on admissible real parameters *)

Section RealPrices.
Local Open Scope R_scope.

(** The quotients of [lattice_of] on admissible parameters: [1.0 / u] has
    a divisor that is not zero, and the divisor [u - v] of [p] can only
    vanish together with its dividend, which is [0/0] (that is [NaN]) for
    IEEE arithmetic too. *)
Lemma admissible_quotients (n : Z) (e r σ : R) :
  (1 ≤ n)%Z → 0 < e →
  u_R n e r σ ≠ 0
  ∧ (u_R n e r σ - v_R n e r σ = 0 → exp (r * step_R n e) - v_R n e r σ = 0).
Proof.
  intros Hn He. pose proof (u_R_ge_1 n e r σ Hn He).
  pose proof (growth_between n e r σ Hn He). split.
  - apply Rgt_not_eq. lra.
  - intros Huv. lra.
Qed.







End RealPrices.

(** ** The faults are real

    The safety theorem is not vacuous: the same operations fault as soon
    as an index leaves the buffer or a cell is read before it is written.
    In particular a backward pass that ran its inner loop up to [jdx = n]
    would read [optionPrices[n + 1]]. *)

Section Faults.
Context {T : Type} `{Arith T}.
Variable x : T.

Example read_before_write_faults :
  bind (malloc 2) (λ a, bind (store a 0 x) (λ _, load a 1)) ∅
  = inl Uninitialised.
Proof. reflexivity. Qed.

Example store_past_the_end_faults :
  bind (malloc 2) (λ a, store a 2 x) ∅ = inl OutOfBounds.
Proof. reflexivity. Qed.

Example negative_index_faults :
  bind (malloc 2) (λ a, bind (store a 0 x) (λ _, load a (0 - 1))) ∅
  = inl OutOfBounds.
Proof. reflexivity. Qed.

Example use_after_free_faults :
  bind (malloc 2) (λ a, bind (store a 0 x) (λ _, bind (free a) (λ _, load a 0))) ∅
  = inl Dangling.
Proof. reflexivity. Qed.

Example pass_up_to_n_faults (d p : T) :
  bind (malloc 2) (λ a,
    bind (store a 0 x) (λ _,
    bind (store a 1 x) (λ _,
    for_le 0 1 (λ jdx,
      bind (load a (jdx + 1)) (λ x1,
      bind (load a jdx) (λ x0,
      store a jdx (node d p x1 x0))))))) ∅
  = inl OutOfBounds.
Proof. reflexivity. Qed.

End Faults.

(** [Payoff] on IEEE doubles, whatever [exp] is: a comparison with [NaN]
    is false, so an invalid price pays nothing. *)
Module Binary64Examples.
Import PrimFloat.

Example Payoff_binary64 (libm_exp : float → float) :
  @Payoff _ (Binary64.arith libm_exp) 105.5%float 100%float = 5.5%float
  ∧ @Payoff _ (Binary64.arith libm_exp) 95%float 100%float = 0%float
  ∧ @Payoff _ (Binary64.arith libm_exp) nan 100%float = 0%float.
Proof. repeat split; reflexivity. Qed.

End Binary64Examples.

Example Payoff_NaN (strike0 : R) : Payoff NaN (Fin strike0) = Fin 0.
Proof. reflexivity. Qed.

(** ** Small runs

    The program itself, evaluated on one and on two steps for an
    arbitrary arithmetic: the price is the discounted expectation over the
    recombining tree. *)

Section SmallRuns.
Context {T : Type} `{Arith T}.
Local Open Scope dbl_scope.

Example one_step_run (opt : option_ T) :
  let c := lattice_of 1 opt in
  let f := node (l_discount c) (l_p c) in
  let payoff x := Payoff x (strike opt) in
  OptionPrice_steps 1 opt ∅
  = inr (f (payoff (l_u c * asset opt)) (payoff (l_v c * asset opt)), ∅).
Proof. reflexivity. Qed.

Example two_step_run (opt : option_ T) :
  let c := lattice_of 2 opt in
  let f := node (l_discount c) (l_p c) in
  let payoff x := Payoff x (strike opt) in
  let uu := l_u c * (l_u c * asset opt) in
  let ud := l_u c * (l_v c * asset opt) in
  let dd := l_v c * (l_v c * asset opt) in
  OptionPrice_steps 2 opt ∅
  = inr (f (f (payoff uu) (payoff ud)) (f (payoff ud) (payoff dd)), ∅).
Proof. reflexivity. Qed.

End SmallRuns.

(** * The claims *)

(** C1.  For every option, [OptionPrice] (with [n = 1000] and the inner
    loop always running over [0 .. n - 1]) returns the value of the
    backward induction as the specification words it, whose pass [step]
    only covers the nodes [0 .. step - 1]: both runs end without a fault,
    with the same price and the caller's heap.  The invariants of the data
    model are not needed, and the arithmetic is arbitrary. *)
Theorem OptionPrice_refines_spec {T : Type} `{Arith T}
    (opt : option_ T) (h : heap T) :
  OptionPrice opt h = OptionPrice_spec 1000 opt h
  ∧ ∃ price, OptionPrice opt h = inr (price, h).
Proof.
  unfold OptionPrice.
  rewrite OptionPrice_steps_run, OptionPrice_spec_run by lia.
  split; [|by eexists].
  cbv zeta. unfold price_of. cbv zeta.
  by rewrite induct_cell_agree by lia.
Qed.

(** C2.  The forward construction on real [u], [v] and [asset] leaves
    [asset * u^j * v^(n-j)] in cell [j], for every [j] in [0..n]. *)
Theorem forward_lattice_closed_form (n : Z) (a : ptr) (u v asset0 : R)
    (h : heap dbl) (B : buffer dbl) :
  (0 ≤ n)%Z → h !! a = Some B → length B = Z.to_nat (n + 1) →
  ∃ B', build_lattice n a (Fin u) (Fin v) (Fin asset0) h = inr (tt, <[a := B']> h)
        ∧ ∀ j, (0 ≤ j ≤ n)%Z →
            zlookup B' j
            = Some (Some (Fin (asset0 * u ^ Z.to_nat j * v ^ Z.to_nat (n - j)))).
Proof.
  intros Hn Ha Hlen.
  destruct (build_lattice_ok n a (Fin u) (Fin v) (Fin asset0) h B Hn Ha Hlen)
    as (B' & Hrun & _ & Hcells).
  exists B'. split; [done|]. intros j Hj.
  rewrite Hcells, lattice_cell_real by done. unfold lattice_R.
  replace (Z.to_nat j `min` Z.to_nat n) with (Z.to_nat j) by lia.
  by replace (Z.to_nat n - Z.to_nat j)%nat with (Z.to_nat (n - j)) by lia.
Qed.

Lemma forward_lattice_closed_form_witness :
  ∃ B', build_lattice 2 1%positive (Fin 2) (Fin (1 / 2)) (Fin 100)
          {[1%positive := [None; None; None]]}
        = inr (tt, <[1%positive := B']> {[1%positive := [None; None; None]]})
        ∧ ∀ j, (0 ≤ j ≤ 2)%Z →
            zlookup B' j
            = Some (Some (Fin (100 * 2 ^ Z.to_nat j * (1 / 2) ^ Z.to_nat (2 - j)))).
Proof.
  apply (forward_lattice_closed_form 2 1%positive 2 (1 / 2) 100
           {[1%positive := [None; None; None]]} [None; None; None]).
  - lia.
  - apply lookup_singleton_eq.
  - reflexivity.
Defined.



(** C4.  On real numbers [Payoff] is [max (price - strike) 0]; it is a
    total function of its two arguments and touches no memory. *)
Theorem Payoff_is_max (price strike : R) :
  Payoff (Fin price) (Fin strike) = Fin (Rmax (price - strike) 0).
Proof. apply Payoff_real. Qed.

(** C5, as the code has it.  On admissible parameters and at least one
    step, [ufactor] is a real number [>= 1]: the radicand
    [ufactor * ufactor - 1] is never negative, the square root is never
    invalid, and [u] is a real number. *)
Theorem radicand_never_negative (n : Z) (asset0 strike0 expiry0 rate0 volatility0 : R) :
  (1 ≤ n)%Z → admissible asset0 strike0 expiry0 volatility0 →
  ∃ c, l_ufactor (lattice_of n (real_option asset0 strike0 expiry0 rate0 volatility0))
       = Fin c
       ∧ (1 <= c)%R ∧ (1 <= c ^ 2)%R
       ∧ fsqrt (Fin c * Fin c - of_int 1)%D = Fin (sqrt (c * c - 1))
       ∧ l_u (lattice_of n (real_option asset0 strike0 expiry0 rate0 volatility0))
         = Fin (c + sqrt (c * c - 1)).
Proof.
  intros Hn (_ & _ & He & _).
  exists (ufactor_R n expiry0 rate0 volatility0).
  rewrite lattice_of_real by done. cbn [l_ufactor l_u].
  pose proof (ufactor_R_ge_1 n expiry0 rate0 volatility0 Hn He).
  split; [done|]. split; [done|]. split; [nra|]. split; [|done].
  cbn [fsqrt fmul fsub of_int dbl_arith lift2].
  apply dsqrt_Fin. nra.
Qed.

Lemma radicand_never_negative_witness :
  ∃ c, l_ufactor (lattice_of 1000 (real_option 100 100 1 (5 / 100) 0)) = Fin c
       ∧ (1 <= c)%R ∧ (1 <= c ^ 2)%R
       ∧ fsqrt (Fin c * Fin c - of_int 1)%D = Fin (sqrt (c * c - 1))
       ∧ l_u (lattice_of 1000 (real_option 100 100 1 (5 / 100) 0))
         = Fin (c + sqrt (c * c - 1)).
Proof.
  apply (radicand_never_negative 1000 100 100 1 (5 / 100) 0).
  - lia.
  - unfold admissible. lra.
Defined.

(** C5, as the specification states it, fails: no admissible parameters
    and step count [>= 1] make [ufactor² < 1]. *)
Lemma negative_radicand_unreachable :
  ¬ ∃ (n : Z) (asset0 strike0 expiry0 rate0 volatility0 c : R),
      (1 ≤ n)%Z ∧ admissible asset0 strike0 expiry0 volatility0
      ∧ l_ufactor (lattice_of n (real_option asset0 strike0 expiry0 rate0 volatility0))
        = Fin c
      ∧ (c ^ 2 < 1)%R.
Proof.
  intros (n & a & k & e & r & σ & c & Hn & (_ & _ & He & _) & Hc & Hlt).
  rewrite lattice_of_real in Hc by done. cbn [l_ufactor] in Hc.
  injection Hc as <-.
  pose proof (ufactor_R_ge_1 n e r σ Hn He). nra.
Qed.




(** C7.  [OptionPrice] is a function of its parameters alone: whatever
    the heap it is called in, it returns the same price and leaves that
    heap exactly as it found it. *)
Theorem OptionPrice_deterministic {T : Type} `{Arith T}
    (opt : option_ T) (h1 h2 : heap T) :
  ∃ price, OptionPrice opt h1 = inr (price, h1)
           ∧ OptionPrice opt h2 = inr (price, h2).
Proof.
  exists (price_of 1000 opt). unfold OptionPrice.
  by rewrite !OptionPrice_steps_run by lia.
Qed.




(** C9.  No access of [OptionPrice] faults: every load and store hits a
    live block at an index inside [0, n], and every cell read was written
    before, so the call never returns [Dangling], [OutOfBounds] or
    [Uninitialised]. *)
Theorem OptionPrice_memory_safe {T : Type} `{Arith T}
    (opt : option_ T) (h : heap T) (e : fault) :
  OptionPrice opt h ≠ inl e.
Proof. unfold OptionPrice. by rewrite OptionPrice_steps_run by lia. Qed.



(** * Further properties of the code *)

(** ** The lattice is risk neutral *)

Section RiskNeutral.
Local Open Scope R_scope.








End RiskNeutral.

Section PriceFacts.
Local Open Scope R_scope.
Variables (n : Z) (e r σ : R).
Hypothesis Hn : (1 ≤ n)%Z.
Hypothesis He : 0 < e.
Hypothesis Hrs : r ≠ 0 ∨ σ ≠ 0.







End PriceFacts.

Section Lipschitz.
Local Open Scope R_scope.


Variables (n : Z) (e r σ : R).
Hypothesis Hn : (1 ≤ n)%Z.
Hypothesis He : 0 < e.
Hypothesis Hrs : r ≠ 0 ∨ σ ≠ 0.



End Lipschitz.

(** ** Invalid values *)

Section Invalid.
Local Open Scope R_scope.

(** The constants on any real parameters, before the square root and the
    quotients are resolved. *)
Lemma lattice_of_real_raw (n : Z) (a k e r σ : R) :
  n ≠ 0%Z →
  let c := ufactor_R n e r σ in
  let u := (Fin c + fsqrt (Fin (c * c - 1)))%D in
  let v := (of_int 1 / u)%D in
  lattice_of n (real_option a k e r σ)
  = mk_lattice (Fin (step_R n e)) (Fin (discount_R n e r)) (Fin c) u v
      ((Fin (exp (r * step_R n e)) - v) / (u - v))%D.
Proof.
  intros Hn. cbv zeta. unfold lattice_of. cbv zeta.
  assert (IZR n ≠ 0) by (by apply not_0_IZR).
  cbn [fdiv fmul fadd fsub fneg fexp fsqrt of_int half dbl_arith
       expiry rate volatility real_option].
  rewrite ddiv_Fin by done. fold (step_R n e). cbn [lift1 lift2].
  fold (discount_R n e r). fold (ufactor_R n e r σ). done.
Qed.

(** An invalid up-probability invalidates the price after one pass. *)
Lemma price_of_invalid_p (n : Z) (opt : option_ dbl) :
  (1 ≤ n)%Z → l_p (lattice_of n opt) = NaN → price_of n opt = NaN.
Proof.
  intros Hn Hp. unfold price_of. cbv zeta. rewrite Hp.
  replace (Z.to_nat n) with (S (Z.to_nat (n - 1))) by lia.
  cbn [induct_cell]. unfold pass_cell. rewrite decide_True by lia.
  unfold node. by destruct (l_discount (lattice_of n opt)).
Qed.

Lemma ufactor_R_zero_expiry (n : Z) (r σ : R) : ufactor_R n 0 r σ = 1.
Proof.
  unfold ufactor_R, discount_R, step_R.
  replace (- r * (0 / IZR n)) with 0 by (unfold Rdiv; ring).
  replace ((r + σ * σ) * (0 / IZR n)) with 0 by (unfold Rdiv; ring).
  rewrite exp_0. lra.
Qed.

Lemma lattice_of_zero_expiry (n : Z) (a k r σ : R) :
  n ≠ 0%Z → l_p (lattice_of n (real_option a k 0 r σ)) = NaN.
Proof.
  intros Hn. rewrite lattice_of_real_raw by done. cbn [l_p].
  rewrite ufactor_R_zero_expiry.
  replace (1 * 1 - 1) with 0 by ring.
  cbn [fsqrt dbl_arith]. rewrite dsqrt_Fin by lra. rewrite sqrt_0.
  cbn [fadd fdiv fsub of_int dbl_arith lift2].
  rewrite ddiv_Fin by lra. cbn [lift2].
  replace (1 + 0 - 1 / (1 + 0)) with 0 by field.
  apply ddiv_zero.
Qed.





End Invalid.

(** ** The binomial expectation *)

Section Binomial.
Local Open Scope R_scope.


Lemma binom_above (n k : nat) : (n < k)%nat → binom n k = 0%nat.
Proof.
  revert k. induction n as [|n IH]; intros [|k] Hk; try done; try lia.
  cbn. rewrite !IH by lia. done.
Qed.

Lemma binom_diag (n : nat) : binom n n = 1%nat.
Proof.
  induction n as [|n IH]; [done|]. cbn. rewrite IH, (binom_above n (S n)) by lia. done.
Qed.








End Binomial.

(** ** Sample constants *)



(** ** [OptionPrice] and [Payoff] on real parameters *)





















(** X11.  With expiry zero the up-probability is [0/0] and [OptionPrice]
    returns [NaN], whatever the other real parameters. *)
Theorem zero_expiry_price_invalid
    (asset0 strike0 rate0 volatility0 : R) (h : heap dbl) :
  OptionPrice (real_option asset0 strike0 0 rate0 volatility0) h = inr (NaN, h).
Proof.
  unfold OptionPrice. rewrite OptionPrice_steps_run by lia.
  rewrite price_of_invalid_p; [done|lia|]. by apply lattice_of_zero_expiry.
Qed.





(** X14.  On real numbers [Payoff] does not decrease with the price and
    grows no faster than it: for [price1 <= price2] the payoffs differ by
    at least [0] and at most [price2 - price1]. *)
Theorem Payoff_monotone_and_Lipschitz (price1 price2 strike0 : R) :
  (price1 <= price2)%R →
  ∃ pay1 pay2,
    Payoff (Fin price1) (Fin strike0) = Fin pay1
    ∧ Payoff (Fin price2) (Fin strike0) = Fin pay2
    ∧ (0 <= pay2 - pay1 <= price2 - price1)%R.
Proof.
  intros Hle. exists (Rmax (price1 - strike0) 0), (Rmax (price2 - strike0) 0).
  rewrite !Payoff_real. split; [done|]. split; [done|].
  unfold Rmax. repeat destruct (Rle_dec _ _); lra.
Qed.

Lemma Payoff_monotone_and_Lipschitz_witness :
  ∃ pay1 pay2,
    Payoff (Fin 95) (Fin 100) = Fin pay1
    ∧ Payoff (Fin 105) (Fin 100) = Fin pay2
    ∧ (0 <= pay2 - pay1 <= 105 - 95)%R.
Proof. apply (Payoff_monotone_and_Lipschitz 95 105 100). lra. Defined.

(** ** [Payoff] on IEEE doubles *)

Module Binary64Facts.
Import PrimFloat SpecFloat FloatOps FloatAxioms.

Lemma SFcompare_refl (f : spec_float) : f ≠ S754_nan → SFcompare f f = Some Eq.
Proof.
  destruct f as [s|s| |s m e]; intros Hf; try done.
  - by destruct s.
  - cbn. rewrite Z.compare_refl, Pos.compare_cont_refl. by destruct s.
Qed.

Lemma is_nan_Prim2SF (x : float) : is_nan x = true → Prim2SF x = S754_nan.
Proof.
  unfold is_nan. rewrite eqb_spec. unfold SFeqb. intros Hx.
  destruct (Prim2SF x) eqn:E; try done; by rewrite SFcompare_refl in Hx.
Qed.

Lemma ltb_nan_l (x y : float) : is_nan x = true → ltb x y = false.
Proof.
  intros Hx. rewrite ltb_spec, (is_nan_Prim2SF x Hx). done.
Qed.

Lemma ltb_nan_r (x y : float) : is_nan y = true → ltb x y = false.
Proof.
  intros Hy. rewrite ltb_spec, (is_nan_Prim2SF y Hy). unfold SFltb.
  by destruct (Prim2SF x).
Qed.

(** X15.  On IEEE doubles, whatever [exp] is, [Payoff] returns [+0.0]
    as soon as the price or the strike is a NaN: both comparisons with a
    NaN are false. *)
Theorem Payoff_binary64_invalid (libm_exp : float → float) (price strike : float) :
  is_nan price = true ∨ is_nan strike = true →
  @Payoff _ (Binary64.arith libm_exp) price strike = 0%float.
Proof.
  intros Hnan. unfold Payoff. cbn [fgt Binary64.arith].
  destruct Hnan as [Hp|Hk].
  - by rewrite ltb_nan_r.
  - by rewrite ltb_nan_l.
Qed.

Lemma Payoff_binary64_invalid_witness :
  @Payoff _ (Binary64.arith (λ x, x)) nan 100%float = 0%float.
Proof.
  apply (Payoff_binary64_invalid (λ x, x) nan 100%float). by left.
Defined.

End Binary64Facts.

(** ** The driver *)

Section DriverFacts.
Context {T : Type} `{Arith T}.
Local Open Scope dbl_scope.

(** X16.  When the input holds five numbers, [main] consumes exactly
    these, prints the five prompts, the blank lines, the label and the
    price that [OptionPrice] returns for the option with the expiry
    divided by 12 and the rate divided by 100, returns 0 and leaves the
    memory as it found it; no fault occurs, for any arithmetic. *)
Theorem main_prices_normalised_option
    (a k months percent σ : T) (rest : list T) (out : list (output T)) (h : heap T) :
  ∃ price,
    OptionPrice (mk_option a k (months / of_int 12) (percent / of_int 100) σ) h
    = inr (price, h)
    ∧ main (mk_world (a :: k :: months :: percent :: σ :: rest) out h)
      = inr (0%Z,
             mk_world rest
               (out ++ [Text Console.ask_asset; Text Console.ask_strike;
                        Text Console.ask_expiry; Text Console.ask_rate;
                        Text Console.ask_volatility; Text Console.blank_lines;
                        Text Console.value_label; Fixed2 price;
                        Text Console.newline])
               h).
Proof.
  eexists. split.
  { unfold OptionPrice. by rewrite OptionPrice_steps_run by lia. }
  unfold main, io_bind, print, scanf_lf, field, call. cbn [stdin stdout memory].
  unfold OptionPrice. rewrite OptionPrice_steps_run by lia.
  unfold io_ret. cbn [stdin stdout memory]. by rewrite <- !app_assoc.
Qed.


End DriverFacts.




